(** * MotivSphere firmware: streaming I/O engine

  A shallow embedding of the two sketches of the repository:

  - [Speech_2_text.ino]: I2S capture into a WAV container on the SD card
    ([writeWavHeader], [recordAudio], [finalizeWavHeader]);
  - the dual-TFT player sketch: [playSong], [read16], [read32],
    [displayBMP] and the scheduler [loop].

  Fixed-width C integers are modelled as [Z] with the wrap-around written
  out, file contents as [list byte], and the hardware collaborators (SD
  files, the I2S channel, the TFT) as explicit state. *)

From Stdlib Require Import String.
From Stdlib.Strings Require Import Byte.
From Stdlib Require Import ZArith List Lia Bool.
Import ListNotations.

Local Open Scope Z_scope.

(* ================================================================== *)
(** ** Fixed-width integers of the target (32-bit [int], [size_t]) *)
(* ================================================================== *)

Module CInt.

(** Conversion to an unsigned type of [w] bits. *)
Definition wrap (w : Z) (z : Z) : Z := z mod 2 ^ w.

Definition u8 (z : Z) : Z := wrap 8 z.
Definition u16 (z : Z) : Z := wrap 16 z.
Definition u32 (z : Z) : Z := wrap 32 z.

(** Conversion to a signed type of [w] bits (two's complement). *)
Definition swrap (w : Z) (z : Z) : Z :=
  (z + 2 ^ (w - 1)) mod 2 ^ w - 2 ^ (w - 1).

Definition i16 (z : Z) : Z := swrap 16 z.
Definition i32 (z : Z) : Z := swrap 32 z.

Definition byte_of_Z (z : Z) : byte :=
  match Byte.of_N (Z.to_N (u8 z)) with
  | Some b => b
  | None => x00
  end.

Definition Z_of_byte (b : byte) : Z := Z.of_N (Byte.to_N b).

(** Little-endian decoding of a byte string. *)
Fixpoint le_decode (bs : list byte) : Z :=
  match bs with
  | [] => 0
  | b :: bs' => Z_of_byte b + 256 * le_decode bs'
  end.

End CInt.

Import CInt.

(* ================================================================== *)
(** ** BlockStream: an SD [File] *)
(* ================================================================== *)

Module Stream.

(** An open file: its bytes and the cursor. *)
Record File : Type := mkFile
  { content : list byte;
    position : nat }.

(** [SD.open(path, FILE_WRITE)] on the ESP32 core: a fresh, empty file. *)
Definition created : File := mkFile [] 0.

(** [SD.open(path)]: an existing file, opened for reading at offset 0. *)
Definition opened (bs : list byte) : File := mkFile bs 0.

Definition size (f : File) : nat := length (content f).

Definition available (f : File) : nat := size f - position f.

(** [file.write(buf, len)]: the bytes land at the cursor, over what is
    there, and extend the file past its end. *)
Definition write (f : File) (bs : list byte) : File :=
  {| content := firstn (position f) (content f) ++ bs
                ++ skipn (position f + length bs) (content f);
     position := (position f + length bs)%nat |}.

(** [file.seek(pos)]: absolute; a target past the end is refused. *)
Definition seek (f : File) (p : nat) : File :=
  if (p <=? size f)%nat then {| content := content f; position := p |}
  else f.

(** [file.read(buf, n)]: up to [n] bytes from the cursor. *)
Definition read_block (f : File) (n : nat) : list byte * File :=
  let bs := firstn n (skipn (position f) (content f)) in
  (bs, {| content := content f;
          position := (position f + length bs)%nat |}).

(** [file.read()]: one byte as an [int], or [-1] at the end. *)
Definition read_byte (f : File) : Z * File :=
  match nth_error (content f) (position f) with
  | Some b => (Z_of_byte b,
               {| content := content f; position := S (position f) |})
  | None => (-1, f)
  end.

End Stream.

Import Stream.

(* ================================================================== *)
(** ** Speech_2_text.ino: WAV container writer and capture pump *)
(* ================================================================== *)

Module Wav.

Definition SAMPLE_RATE : Z := 16000.
Definition SAMPLE_BITS : Z := 16.
Definition CHANNELS : Z := 1.
Definition RECORD_TIME_SEC : Z := 60.

(** A C string literal written with [file.write(lit, 4)]. *)
Definition lit (s : string) : list byte := list_byte_of_string s.

(** The four bytes [{v & 0xFF, (v >> 8) & 0xFF, (v >> 16) & 0xFF,
    (v >> 24) & 0xFF}], each cast to [uint8_t]. *)
Definition le_bytes32 (v : Z) : list byte :=
  [ byte_of_Z (Z.land v 255);
    byte_of_Z (Z.land (Z.shiftr v 8) 255);
    byte_of_Z (Z.land (Z.shiftr v 16) 255);
    byte_of_Z (Z.land (Z.shiftr v 24) 255) ].

Definition writeWavHeader (file : File)
    (sampleRate bitsPerSample channels : Z) : File :=
  let sampleRate := u32 sampleRate in
  let bitsPerSample := u16 bitsPerSample in
  let channels := u16 channels in
  let byteRate := u32 (u32 (sampleRate * channels) * bitsPerSample) / 8 in
  let file := write file (lit "RIFF") in
  let file := write file [x00; x00; x00; x00] in
  let file := write file (lit "WAVE") in
  let file := write file (lit "fmt ") in
  let fmt_chunk :=
    [x10; x00; x00; x00; x01; x00; byte_of_Z channels; x00] in
  let file := write file fmt_chunk in
  let file := write file (le_bytes32 sampleRate) in
  let file := write file (le_bytes32 byteRate) in
  let block_align_chunk :=
    [ byte_of_Z (Z.quot (i32 (channels * bitsPerSample)) 8); x00;
      byte_of_Z bitsPerSample; x00 ] in
  let file := write file block_align_chunk in
  let file := write file (lit "data") in
  write file [x00; x00; x00; x00].

Definition finalizeWavHeader (file : File) : File :=
  let fileSize := u32 (Z.of_nat (size file)) in
  let file := seek file 4 in
  let riff_size_chunk := le_bytes32 (u32 (fileSize - 8)) in
  let file := write file riff_size_chunk in
  let file := seek file 40 in
  let data_chunk_size := u32 (fileSize - 44) in
  let data_size_chunk := le_bytes32 data_chunk_size in
  write file data_size_chunk.

(** The payload phase: a sequence of [audioFile.write] calls. *)
Definition write_all (file : File) (chunks : list (list byte)) : File :=
  fold_left write chunks file.

(** [writeWavHeader; write...; finalizeWavHeader] on a fresh file. *)
Definition wav_session (sampleRate bitsPerSample channels : Z)
    (chunks : list (list byte)) : File :=
  finalizeWavHeader
    (write_all (writeWavHeader created sampleRate bitsPerSample channels)
               chunks).

(** The bytes of the provisional header. *)
Definition header_bytes (sampleRate bitsPerSample channels : Z)
  : list byte :=
  content (writeWavHeader created sampleRate bitsPerSample channels).

(** The field of [n] bytes at offset [off], as stored. *)
Definition field (bs : list byte) (off n : nat) : list byte :=
  firstn n (skipn off bs).

(** *** The capture pump *)

(** How the [while] loop of [recordAudio] ended on a given supply of
    channel reads: its condition became false, or the channel supplied
    nothing more while the loop was still asking. *)
Inductive ending : Type := Stopped | Waiting.

Record capture : Type := mkCapture
  { how : ending;
    samplesRecorded : Z;
    audioFile : File;
    reads_left : list (list byte) }.

(** [sizeof(buffer)] for [int16_t buffer[512]]. *)
Definition buffer_bytes : nat := 1024.

(** One [i2s_read] delivers [chunk]: at most [sizeof(buffer)] bytes of
    it reach the buffer. *)
Definition i2s_read (chunk : list byte) : list byte :=
  firstn buffer_bytes chunk.

(** [while (samplesRecorded < totalSamples) { ... }] over the reads the
    channel supplies.  The sample sent to the serial plotter on each
    pass touches neither the file nor the count and is left out. *)
Fixpoint recordAudio_loop (reads : list (list byte))
    (totalSamples samplesRecorded : Z) (file : File) : capture :=
  if samplesRecorded <? totalSamples then
    match reads with
    | [] => mkCapture Waiting samplesRecorded file []
    | chunk :: reads' =>
        let data := i2s_read chunk in
        let bytesRead := Z.of_nat (length data) in
        let file := write file data in
        recordAudio_loop reads' totalSamples
          (u32 (samplesRecorded + bytesRead / (SAMPLE_BITS / 8))) file
    end
  else mkCapture Stopped samplesRecorded file reads.

Definition recordAudio (durationSec : Z) (reads : list (list byte))
    (file : File) : capture :=
  let totalSamples := u32 (SAMPLE_RATE * u32 durationSec) in
  recordAudio_loop reads totalSamples 0 file.

(** Samples carried by a read of [chunk]. *)
Definition samples_of (chunk : list byte) : Z :=
  Z.of_nat (length (i2s_read chunk)) / 2.

Definition samples_in (reads : list (list byte)) : Z :=
  fold_right (fun c acc => samples_of c + acc) 0 reads.

(** Exact capture, as a property of every supply of channel reads: if
    the loop stops, it has counted [SAMPLE_RATE * durationSec] samples. *)
Definition capture_is_exact : Prop :=
  forall (durationSec : Z) (reads : list (list byte)),
    0 <= durationSec < 2 ^ 32 ->
    let c := recordAudio durationSec reads created in
    how c = Stopped -> samplesRecorded c = SAMPLE_RATE * durationSec.

End Wav.

(* ================================================================== *)
(** ** Player sketch: the SD card and the I2S transmit channel *)
(* ================================================================== *)

Module Hw.

(** The mounted volume, as [SD.exists] and [SD.open] see it.  A path may
    exist and still fail to open. *)
Record SDCard : Type := mkSD
  { SD_exists : string -> bool;
    SD_open : string -> option (list byte) }.

(** How long a call on the channel may wait: a number of ticks, or
    [portMAX_DELAY], without bound. *)
Inductive TickType_t : Type :=
| ticks (n : nat)
| portMAX_DELAY.

(** The I2S transmit side.  [sent] is what the channel has consumed,
    [requests] the length of every [i2s_write] issued so far, and
    [budget] what each coming call gets accepted within a bounded wait
    (no entry left: all it is given). *)
Record Channel : Type := mkChannel
  { sent : list byte;
    requests : list nat;
    budget : list nat }.

(** What a call of [len] bytes has had accepted when it returns: under
    [portMAX_DELAY] it returns only once the whole request is taken. *)
Definition accepts (ch : Channel) (len : nat) (wait : TickType_t) : nat :=
  match wait with
  | portMAX_DELAY => len
  | ticks _ =>
      match budget ch with
      | [] => len
      | b :: _ => Nat.min b len
      end
  end.

(** [i2s_write(port, buf, len, &bytesWritten, wait)]: returns
    [bytesWritten]. *)
Definition i2s_write (ch : Channel) (buf : list byte) (len : nat)
    (wait : TickType_t) : nat * Channel :=
  let n := accepts ch len wait in
  (n, {| sent := sent ch ++ firstn n buf;
         requests := requests ch ++ [len];
         budget := tl (budget ch) |}).

End Hw.

Import Hw.

(* ================================================================== *)
(** ** Player sketch: [playSong] *)
(* ================================================================== *)

Module Player.

Definition BUFFER_SIZE : nat := 4096.

(** The global [audioFile] ([None]: no open handle), the channel, and
    the size of every chunk [audioFile.read] returned. *)
Record Audio : Type := mkAudio
  { audioFile : option File;
    i2s : Channel;
    chunks_read : list nat }.

(** The body of the [while] loop: one read, the trim, one [i2s_write]. *)
Definition playSong_body (f : File) (ch : Channel)
  : nat * nat * nat * File * Channel :=
  let '(buffer, f) := read_block f BUFFER_SIZE in
  let got := List.length buffer in
  let bytesRead :=
    if negb (got mod 2 =? 0)%nat then (got - 1)%nat else got in
  let '(bytesWritten, ch) :=
    i2s_write ch buffer bytesRead portMAX_DELAY in
  (got, bytesRead, bytesWritten, f, ch).

(** [while (audioFile.available()) { ... }]; [None] when [fuel]
    iterations were not enough to reach the end of the loop. *)
Fixpoint playSong_loop (fuel : nat) (f : File) (ch : Channel)
    (log : list nat) : option (File * Channel * list nat) :=
  if (available f =? 0)%nat then Some (f, ch, log)
  else
    match fuel with
    | O => None
    | S fuel' =>
        let '(got, _, _, f, ch) := playSong_body f ch in
        playSong_loop fuel' f ch (log ++ [got])
    end.

Definition playSong (fuel : nat) (sd : SDCard) (filename : string)
    (a : Audio) : option Audio :=
  if negb (SD_exists sd filename) then Some a
  else
    match SD_open sd filename with
    | None => Some (mkAudio None (i2s a) (chunks_read a))
    | Some bytes =>
        match playSong_loop fuel (opened bytes) (i2s a) (chunks_read a) with
        | None => None
        | Some (_, ch, log) => Some (mkAudio None ch log)
        end
    end.

(** Reference chunking of a byte string, [n] bytes at a time. *)
Fixpoint chunks_of (fuel n : nat) (bs : list byte) : list (list byte) :=
  match fuel, bs with
  | _, [] => []
  | O, _ => []
  | S fuel', _ => firstn n bs :: chunks_of fuel' n (skipn n bs)
  end.

Definition chunks (n : nat) (bs : list byte) : list (list byte) :=
  chunks_of (List.length bs) n bs.

(** The largest even length not above [n]. *)
Definition even_floor (n : nat) : nat := (2 * (n / 2))%nat.

(** What is left of the stream from the cursor on. *)
Definition rest (f : File) : list byte := skipn (position f) (content f).

(** One request per chunk, each trimmed to an even length. *)
Definition transmit_all (ch : Channel) (cs : list (list byte)) : Channel :=
  fold_left (fun ch c => snd (i2s_write ch c (even_floor (List.length c))
                                       portMAX_DELAY))
            cs ch.

(** Full transmission, as a property of every file and every channel:
    one pass of [playSong] leaves on the channel every chunk of the
    file, trimmed to its even length, whole. *)
Definition transmits_trimmed_chunks : Prop :=
  forall (sd : SDCard) (filename : string) (bytes : list byte)
         (ch : Channel),
    SD_exists sd filename = true ->
    SD_open sd filename = Some bytes ->
    exists a',
      playSong (List.length bytes) sd filename (mkAudio None ch [])
      = Some a'
      /\ sent (i2s a')
         = sent ch
           ++ concat (map (fun c => firstn (even_floor (List.length c)) c)
                          (chunks BUFFER_SIZE bytes)).

End Player.

(* ================================================================== *)
(** ** Player sketch: [read16], [read32], [displayBMP] *)
(* ================================================================== *)

Module Bmp.

(** The colour handed to [drawPixel]: [display.color565(r, g, b)], kept
    as the three channel bytes passed to it. *)
Record color565 : Type := mkColor { red : byte; green : byte; blue : byte }.

(** What the decoder does to its collaborators, in program order.  The
    arguments of the render calls are the [int] values the sketch
    computes, before the callee converts them. *)
Inductive op : Type :=
| FileRead (got : Z)                 (* file.read(): the int returned *)
| FileReadBlock (got : nat)          (* file.read(buf, 60): bytes read *)
| FileSeek (pos : Z)
| FileClose
| SetAddrWindow (x0 y0 x1 y1 : Z)
| DrawPixel (x y : Z) (c : color565).

(** The file as the decoder has it, whether a handle on it is held, and
    the calls made so far. *)
Record Dec : Type := mkDec
  { file : File;
    is_open : bool;
    trace : list op }.

Definition emit (o : op) (d : Dec) : Dec :=
  mkDec (file d) (is_open d) (trace d ++ [o]).

Definition fread (d : Dec) : Z * Dec :=
  let '(v, f) := read_byte (file d) in
  (v, mkDec f (is_open d) (trace d ++ [FileRead v])).

(** [f.read() | (f.read() << 8)], operands taken left to right. *)
Definition read16 (d : Dec) : Z * Dec :=
  let '(b0, d) := fread d in
  let '(b1, d) := fread d in
  (u16 (Z.lor b0 (Z.shiftl b1 8)), d).

(** [f.read() | (f.read() << 8) | (f.read() << 16) | (f.read() << 24)]. *)
Definition read32 (d : Dec) : Z * Dec :=
  let '(b0, d) := fread d in
  let '(b1, d) := fread d in
  let '(b2, d) := fread d in
  let '(b3, d) := fread d in
  (u32 (Z.lor (Z.lor (Z.lor b0 (Z.shiftl b1 8)) (Z.shiftl b2 16))
              (Z.shiftl b3 24)), d).

Definition fseek (pos : Z) (d : Dec) : Dec :=
  mkDec (seek (file d) (Z.to_nat pos)) (is_open d)
        (trace d ++ [FileSeek pos]).

Definition fclose (d : Dec) : Dec :=
  mkDec (file d) false (trace d ++ [FileClose]).

(** The end of the scope of the local [File bmpFile]: at every [return]
    the object is destroyed, and a handle it still holds is released
    with it.  No call is made, so the trace is as it was. *)
Definition leave (d : Dec) : Dec :=
  mkDec (file d) false (trace d).

(** [for (int i = lo; i < hi; i++) body]. *)
Fixpoint for_upto {S : Type} (n : nat) (i : Z) (body : Z -> S -> S)
    (s : S) : S :=
  match n with
  | O => s
  | Datatypes.S n' => for_upto n' (i + 1) body (body i s)
  end.

Definition for_range {S : Type} (lo hi : Z) (body : Z -> S -> S) (s : S)
  : S :=
  for_upto (Z.to_nat (hi - lo)) lo body s.

(** [sizeof(sdbuffer)] for [uint8_t sdbuffer[3 * 20]]. *)
Definition sdbuffer_size : Z := 60.

(** [(bmpWidth * 3 + 3) & ~3], computed in [int], stored as [uint32_t]. *)
Definition rowSize_of (bmpWidth : Z) : Z :=
  u32 (Z.land (i32 (i32 (bmpWidth * 3) + 3)) (Z.lnot 3)).

(** [flip ? (bmpHeight - 1 - row) : row]. *)
Definition source_row (flip : bool) (bmpHeight row : Z) : Z :=
  if flip then i32 (i32 (bmpHeight - 1) - row) else row.

(** [bmpImageOffset + source_row * rowSize], in [uint32_t]. *)
Definition row_pos (bmpImageOffset rowSize : Z) (flip : bool)
    (bmpHeight row : Z) : Z :=
  u32 (bmpImageOffset + u32 (u32 (source_row flip bmpHeight row) * rowSize)).

(** The decoder's locals across the pixel loops. *)
Record Pix : Type := mkPix
  { dec : Dec;
    sdbuffer : list byte;
    buffidx : Z }.

Definition at_idx (buf : list byte) (i : Z) : byte :=
  nth (Z.to_nat i) buf x00.

(** The body of the column loop. *)
Definition pixel (x y row col : Z) (p : Pix) : Pix :=
  let p :=
    if buffidx p >=? sdbuffer_size then
      let '(bs, f) := read_block (file (dec p)) (Z.to_nat sdbuffer_size) in
      mkPix (mkDec f (is_open (dec p))
                   (trace (dec p) ++ [FileReadBlock (List.length bs)]))
            (bs ++ skipn (List.length bs) (sdbuffer p))
            0
    else p in
  let b := at_idx (sdbuffer p) (buffidx p) in
  let i := u8 (buffidx p + 1) in
  let g := at_idx (sdbuffer p) i in
  let i := u8 (i + 1) in
  let r := at_idx (sdbuffer p) i in
  let i := u8 (i + 1) in
  mkPix (emit (DrawPixel (i32 (x + col)) (i32 (y + row)) (mkColor r g b))
              (dec p))
        (sdbuffer p) i.

(** The body of the row loop. *)
Definition row_body (x y bmpImageOffset rowSize : Z) (flip : bool)
    (bmpWidth bmpHeight row : Z) (p : Pix) : Pix :=
  let pos := row_pos bmpImageOffset rowSize flip bmpHeight row in
  let p :=
    if negb (Z.of_nat (position (file (dec p))) =? pos)
    then mkPix (fseek pos (dec p)) (sdbuffer p) (buffidx p)
    else p in
  for_range 0 bmpWidth (pixel x y row) p.

(** [displayBMP] from the computation of [rowSize] to its end, the
    header having been accepted; [stack] is whatever the uninitialised
    [sdbuffer] holds on entry. *)
Definition render (d : Dec) (stack : list byte)
    (x y bmpImageOffset bmpWidth bmpHeight : Z) : Dec :=
  let rowSize := rowSize_of bmpWidth in
  let flip := bmpHeight >? 0 in
  let bmpHeight := i32 (Z.abs bmpHeight) in
  let d := emit (SetAddrWindow x y (i32 (i32 (x + bmpWidth) - 1))
                               (i32 (i32 (y + bmpHeight) - 1))) d in
  let p := mkPix d (firstn (Z.to_nat sdbuffer_size) stack
                    ++ repeat x00 (Z.to_nat sdbuffer_size
                                   - List.length stack))
                 sdbuffer_size in
  let p := for_range 0 bmpHeight
             (row_body x y bmpImageOffset rowSize flip
                       bmpWidth bmpHeight) p in
  fclose (dec p).

(** [displayBMP(filename, display, x, y)]. *)
Definition displayBMP (sd : SDCard) (filename : string)
    (stack : list byte) (x y : Z) : Dec :=
  match SD_open sd filename with
  | None => mkDec (opened []) false []
  | Some bytes =>
      let d := mkDec (opened bytes) true [] in
      let '(magic, d) := read16 d in
      if negb (magic =? 19778) then leave d else
      let '(_, d) := read32 d in
      let '(_, d) := read32 d in
      let '(bmpImageOffset, d) := read32 d in
      let '(_, d) := read32 d in
      let '(w, d) := read32 d in
      let bmpWidth := i32 w in
      let '(h, d) := read32 d in
      let bmpHeight := i32 h in
      let '(_, d) := read16 d in
      let '(bpp, d) := read16 d in
      if negb (bpp =? 24) then leave d else
      let '(compression, d) := read32 d in
      if negb (compression =? 0) then leave d else
      leave (render d stack x y bmpImageOffset bmpWidth bmpHeight)
  end.

(** *** Reading the header by offset *)

(** What the [k]-th [file.read()] of a sequential scan returns. *)
Definition byte_at (bytes : list byte) (k : nat) : Z :=
  match nth_error bytes k with
  | Some b => Z_of_byte b
  | None => -1
  end.

Definition rd16 (bytes : list byte) (k : nat) : Z :=
  u16 (Z.lor (byte_at bytes k) (Z.shiftl (byte_at bytes (k + 1)) 8)).

Definition rd32 (bytes : list byte) (k : nat) : Z :=
  u32 (Z.lor (Z.lor (Z.lor (byte_at bytes k)
                           (Z.shiftl (byte_at bytes (k + 1)) 8))
                    (Z.shiftl (byte_at bytes (k + 2)) 16))
             (Z.shiftl (byte_at bytes (k + 3)) 24)).

(** The trace of [n] single-byte reads from offset [k]. *)
Definition reads (bytes : list byte) (k n : nat) : list op :=
  map (fun i => FileRead (byte_at bytes i)) (seq k n).

(** The decoder after the first [n] single-byte reads. *)
Definition scanned (bytes : list byte) (n : nat) : Dec :=
  mkDec (mkFile bytes (Nat.min n (List.length bytes))) true
        (reads bytes 0 n).

Definition is_draw (o : op) : bool :=
  match o with
  | SetAddrWindow _ _ _ _ | DrawPixel _ _ _ => true
  | _ => false
  end.

(** What reached the render sink. *)
Definition drawn (d : Dec) : list op := filter is_draw (trace d).

(** The colours drawn on destination row [yy], left to right in the
    order they were emitted. *)
Definition drawn_row (d : Dec) (yy : Z) : list color565 :=
  flat_map (fun o => match o with
                     | DrawPixel _ y c => if y =? yy then [c] else []
                     | _ => []
                     end) (trace d).

(** The pixels stored in source row [r] of a bitmap whose pixel data
    starts at [off], [stride] bytes a row, [w] pixels wide. *)
Definition stored_pixel (bytes : list byte) (at_ : nat) : color565 :=
  mkColor (nth (at_ + 2) bytes x00) (nth (at_ + 1) bytes x00)
          (nth at_ bytes x00).

Definition stored_row (bytes : list byte) (off stride w r : nat)
  : list color565 :=
  map (fun c => stored_pixel bytes (off + r * stride + 3 * c)) (seq 0 w).

(** [s] is the smallest multiple of 4 that is at least [3 * w]. *)
Definition is_stride (w s : Z) : Prop :=
  s mod 4 = 0 /\ 3 * w <= s
  /\ forall m, m mod 4 = 0 -> 3 * w <= m -> s <= m.

Definition is_seek (o : op) : bool :=
  match o with
  | FileSeek _ => true
  | _ => false
  end.

(** Header fields as they lie in the file, [None] where it is too
    short. *)
Definition le_at (bytes : list byte) (off n : nat) : option Z :=
  let bs := firstn n (skipn off bytes) in
  if (List.length bs =? n)%nat then Some (le_decode bs) else None.

End Bmp.

(* ================================================================== *)
(** ** Player sketch: the scheduler [loop] *)
(* ================================================================== *)

Module Scheduler.

Definition DEBOUNCE_DELAY : Z := 50.
Definition totalSongs : Z := 5.
Definition totalImages : Z := 4.
Definition imageInterval : Z := 5000.
Definition interval : Z := 1000.

Definition songList : list string :=
  [ "/songs/song1.wav"; "/songs/song2.wav"; "/songs/song3.wav";
    "/songs/song4.wav"; "/songs/song5.wav" ]%string.

(** [songList[i]]; nothing outside the array. *)
Definition song_at (i : Z) : option string :=
  if i <? 0 then None else nth_error songList (Z.to_nat i).

(** The globals the loop mutates. *)
Record Globals : Type := mkGlobals
  { currentSong : Z;              (* int *)
    lastButtonPressTime : Z;      (* unsigned long *)
    currentImage : Z;             (* uint8_t *)
    previousImageMillis : Z;      (* unsigned long *)
    previousMillis : Z }.         (* unsigned long *)

Definition initial : Globals := mkGlobals 0 0 1 0 0.

(** What one pass of [loop] samples from its environment. *)
Record Pass : Type := mkPass
  { millis_entry : Z;             (* millis() on entry *)
    button_low : bool;            (* digitalRead(PREV_BUTTON_PIN) == LOW *)
    millis_button : Z }.          (* millis() inside the button branch *)

(** The tasks one pass dispatches, in order. *)
Inductive task : Type :=
| TickClock
| ShowImage (imageNumber : Z)
| PlaySong (index : Z).

Definition loop (p : Pass) (g : Globals) : Globals * list task :=
  let currentMillis := u32 (millis_entry p) in
  let '(g, t1) :=
    if u32 (currentMillis - previousMillis g) >=? interval
    then (mkGlobals (currentSong g) (lastButtonPressTime g)
                    (currentImage g) (previousImageMillis g)
                    currentMillis,
          [TickClock])
    else (g, []) in
  let '(g, t2) :=
    if u32 (currentMillis - previousImageMillis g) >=? imageInterval
    then
      let img := u8 (Z.rem (currentImage g) totalImages + 1) in
      (mkGlobals (currentSong g) (lastButtonPressTime g)
                 img currentMillis (previousMillis g),
       [ShowImage img])
    else (g, []) in
  let t3 := [PlaySong (currentSong g)] in
  let g :=
    if button_low p then
      let currentTime := u32 (millis_button p) in
      if u32 (currentTime - lastButtonPressTime g) >? DEBOUNCE_DELAY
      then mkGlobals
             (Z.rem (i32 (i32 (currentSong g - 1) + totalSongs)) totalSongs)
             currentTime
             (currentImage g) (previousImageMillis g) (previousMillis g)
      else g
    else mkGlobals (Z.rem (i32 (currentSong g + 1)) totalSongs)
                   (lastButtonPressTime g)
                   (currentImage g) (previousImageMillis g)
                   (previousMillis g) in
  (g, t1 ++ t2 ++ t3).

(** The device after [setup] and the given passes of [loop], with every
    task dispatched so far ([setup] shows the first image). *)
Fixpoint run (ps : list Pass) (g : Globals) (done : list task)
  : Globals * list task :=
  match ps with
  | [] => (g, done)
  | p :: ps' =>
      let '(g', ts) := loop p g in
      run ps' g' (done ++ ts)
  end.

Definition boot (ps : list Pass) : Globals * list task :=
  run ps initial [ShowImage (currentImage initial)].

Definition cursors_ok (g : Globals) : Prop :=
  0 <= currentSong g < totalSongs /\ 1 <= currentImage g <= totalImages.

Definition task_ok (t : task) : Prop :=
  match t with
  | TickClock => True
  | ShowImage n => 1 <= n <= totalImages
  | PlaySong i => 0 <= i < totalSongs /\ song_at i <> None
  end.

End Scheduler.

(* ================================================================== *)
(** ** Test data *)
(* ================================================================== *)

Module Fixture.

Import Bmp.

Definition le16 (v : Z) : list byte :=
  [byte_of_Z v; byte_of_Z (v / 256)].

Definition le32 (v : Z) : list byte :=
  [byte_of_Z v; byte_of_Z (v / 256); byte_of_Z (v / 65536);
   byte_of_Z (v / 16777216)].

(** The 54 header bytes of an uncompressed bitmap: 14-byte file header
    and 40-byte info header, pixel data at offset 54. *)
Definition header (magic : list byte) (w h bpp compression : Z)
    (data_len : Z) : list byte :=
  magic ++ le32 (54 + data_len) ++ le32 0 ++ le32 54
  ++ le32 40 ++ le32 w ++ le32 h ++ le16 1 ++ le16 bpp
  ++ le32 compression ++ le32 data_len
  ++ le32 2835 ++ le32 2835 ++ le32 0 ++ le32 0.

Definition BM : list byte := [x42; x4d].

(** A stored row of [w] pixels of one colour, padded to [stride]. *)
Definition solid_row (w stride : nat) (c : color565) : list byte :=
  flat_map (fun _ => [blue c; green c; red c]) (seq 0 w)
  ++ repeat x00 (stride - 3 * w).

Definition RED : color565 := mkColor xff x00 x00.
Definition BLUE : color565 := mkColor x00 x00 xff.

(** 24 x 2, bottom-up: stored row 0 (the bottom line) red, stored row 1
    (the top line) blue. *)
Definition two_rows : list byte :=
  header BM 24 2 24 0 144 ++ solid_row 24 72 RED ++ solid_row 24 72 BLUE.

(** 20 x 2, bottom-up, stride 60: every stored row fills the decoder's
    cache exactly. *)
Definition cache_wide : list byte :=
  header BM 20 2 24 0 120 ++ solid_row 20 60 RED ++ solid_row 20 60 BLUE.

(** The same pixel rows behind a header that is not a bitmap's. *)
Definition not_a_bitmap : list byte :=
  header [x50; x4b] 24 2 24 0 144
  ++ solid_row 24 72 RED ++ solid_row 24 72 BLUE.

Definition five : list byte := [x01; x02; x03; x04; x05].

Definition full_read : list byte := repeat x00 1024.

Definition card (path : string) (bytes : list byte) : SDCard :=
  mkSD (fun p => String.eqb p path)
       (fun p => if String.eqb p path then Some bytes else None).

Definition image1 : string := "/images/image1.bmp".
Definition song1 : string := "/songs/song1.wav".

End Fixture.

(* ================================================================== *)
(** ** Bytes and little-endian words *)
(* ================================================================== *)

Section Bytes.

Lemma Z_of_byte_range (b : byte) : 0 <= Z_of_byte b < 256.
Proof.
  unfold Z_of_byte. pose proof (Byte.to_N_bounded b) as H.
  lia.
Qed.

Lemma Z_of_byte_of_Z (z : Z) : Z_of_byte (byte_of_Z z) = z mod 256.
Proof.
  unfold byte_of_Z, Z_of_byte, u8, wrap.
  change (2 ^ 8) with 256.
  assert (Hr : 0 <= z mod 256 < 256) by (apply Z.mod_pos_bound; lia).
  destruct (Byte.of_N (Z.to_N (z mod 256))) as [b|] eqn:E.
  - apply Byte.to_of_N in E. rewrite E. lia.
  - apply Byte.of_N_None_iff in E. lia.
Qed.

Lemma byte_of_Z_of_byte (b : byte) : byte_of_Z (Z_of_byte b) = b.
Proof.
  unfold byte_of_Z, Z_of_byte, u8, wrap.
  change (2 ^ 8) with 256.
  pose proof (Byte.to_N_bounded b) as H.
  rewrite Z.mod_small by lia.
  rewrite N2Z.id, Byte.of_to_N. reflexivity.
Qed.

Lemma Z_of_byte_inj (a b : byte) : Z_of_byte a = Z_of_byte b -> a = b.
Proof.
  intros H. rewrite <- (byte_of_Z_of_byte a), <- (byte_of_Z_of_byte b).
  now rewrite H.
Qed.

End Bytes.

Section LittleEndian.
Import Wav.

Lemma le_decode_le_bytes32 (v : Z) :
  0 <= v < 2 ^ 32 -> le_decode (le_bytes32 v) = v.
Proof.
  intros Hv. unfold le_bytes32, le_decode.
  rewrite !Z_of_byte_of_Z.
  change 255 with (Z.ones 8).
  rewrite !Z.land_ones by lia.
  rewrite !Z.shiftr_div_pow2 by lia.
  change (2 ^ 8) with 256. change (2 ^ 16) with 65536.
  change (2 ^ 24) with 16777216.
  change (2 ^ 32) with 4294967296 in Hv.
  rewrite !Z.mod_mod by lia.
  Z.div_mod_to_equations. lia.
Qed.
End LittleEndian.

(* ================================================================== *)
(** ** Writing at the end of a file; the WAV header *)
(* ================================================================== *)

Section Appending.

(** A write with the cursor at the end of the file appends. *)
Lemma write_at_end (c bs : list byte) :
  write (mkFile c (List.length c)) bs
  = mkFile (c ++ bs) (List.length (c ++ bs)).
Proof.
  unfold write; cbn [content position].
  rewrite firstn_all, length_app.
  rewrite skipn_all2 by lia.
  now rewrite app_nil_r.
Qed.

Lemma write_all_at_end (chunks : list (list byte)) :
  forall c,
    Wav.write_all (mkFile c (List.length c)) chunks
    = mkFile (c ++ concat chunks) (List.length (c ++ concat chunks)).
Proof.
  unfold Wav.write_all.
  induction chunks as [|ch chunks IH]; intros c; cbn [fold_left concat].
  - now rewrite app_nil_r.
  - rewrite write_at_end, IH, app_assoc. reflexivity.
Qed.

End Appending.

Section WavHeader.
Import Wav.

Lemma writeWavHeader_created (r b c : Z) :
  writeWavHeader created r b c = mkFile (header_bytes r b c) 44
  /\ List.length (header_bytes r b c) = 44%nat
  /\ field (header_bytes r b c) 4 4 = [x00; x00; x00; x00]
  /\ field (header_bytes r b c) 40 4 = [x00; x00; x00; x00].
Proof.
  unfold header_bytes, writeWavHeader. cbv zeta.
  change created with (mkFile [] (List.length (@nil byte))).
  rewrite !write_at_end.
  unfold le_bytes32, lit, field.
  cbn [content position List.length firstn skipn app Nat.add
       list_byte_of_string].
  repeat split.
Qed.

Lemma finalize_patch (hdr payload : list byte) :
  List.length hdr = 44%nat ->
  let L := Z.of_nat (List.length (hdr ++ payload)) in
  let f := finalizeWavHeader
             (mkFile (hdr ++ payload) (List.length (hdr ++ payload))) in
  size f = List.length (hdr ++ payload)
  /\ field (content f) 4 4 = le_bytes32 (u32 (u32 L - 8))
  /\ field (content f) 40 4 = le_bytes32 (u32 (u32 L - 44))
  /\ skipn 44 (content f) = payload.
Proof.
  intros Hh.
  do 44 (destruct hdr as [|? hdr]; [discriminate Hh|]).
  destruct hdr; [|discriminate Hh].
  cbv zeta.
  unfold finalizeWavHeader, size, seek, write, field, le_bytes32.
  cbn [content position List.length firstn skipn app Nat.add Nat.leb].
  repeat split.
Qed.

End WavHeader.

(* ================================================================== *)
(** ** The WAV session and the capture pump *)
(* ================================================================== *)

Section WavSession.
Import Wav.

(** C1 -- WAV finalization round-trip.  [writeWavHeader] on a fresh
    file, then writes totalling [n] payload bytes, then
    [finalizeWavHeader]: the file is [44 + n] bytes long, the four bytes
    at offset 4 read back, little-endian, as [totalLength - 8], those at
    offset 40 as [totalLength - 44], and the payload follows the header
    untouched.  [totalLength] fits the 32-bit [size_t] of the target. *)
Theorem wav_round_trip (rate bits channels : Z)
    (chunks : list (list byte)) :
  let n := List.length (concat chunks) in
  let totalLength := (44 + n)%nat in
  Z.of_nat totalLength < 2 ^ 32 ->
  let f := wav_session rate bits channels chunks in
  size f = totalLength
  /\ le_decode (field (content f) 4 4) = Z.of_nat totalLength - 8
  /\ le_decode (field (content f) 40 4) = Z.of_nat totalLength - 44
  /\ skipn 44 (content f) = concat chunks.
Proof.
  intros n totalLength Hfit f.
  destruct (writeWavHeader_created rate bits channels)
    as (Hw & Hlen & _ & _).
  assert (Hf : f = finalizeWavHeader
                     (mkFile (header_bytes rate bits channels ++ concat chunks)
                             (List.length (header_bytes rate bits channels
                                           ++ concat chunks)))).
  { unfold f, wav_session. rewrite Hw, <- Hlen at 1.
    now rewrite write_all_at_end. }
  destruct (finalize_patch (header_bytes rate bits channels)
              (concat chunks) Hlen) as (Hs & H4 & H40 & Hp).
  rewrite <- Hf in Hs, H4, H40, Hp.
  assert (HL : List.length (header_bytes rate bits channels ++ concat chunks)
               = totalLength).
  { rewrite length_app, Hlen. reflexivity. }
  rewrite HL in Hs, H4, H40.
  assert (Hu : u32 (Z.of_nat totalLength) = Z.of_nat totalLength).
  { unfold u32, wrap. apply Z.mod_small. lia. }
  assert (Hge : 44 <= Z.of_nat totalLength) by (unfold totalLength; lia).
  rewrite Hu in H4, H40.
  repeat split; try assumption.
  - rewrite H4. unfold u32, wrap. rewrite Z.mod_small by lia.
    apply le_decode_le_bytes32. lia.
  - rewrite H40. unfold u32, wrap. rewrite Z.mod_small by lia.
    apply le_decode_le_bytes32. lia.
Qed.

Lemma wav_round_trip_witness :
  let f := wav_session 16000 16 1 [[x01; x02]; [x03]] in
  size f = 47%nat
  /\ le_decode (field (content f) 4 4) = 39
  /\ le_decode (field (content f) 40 4) = 3
  /\ skipn 44 (content f) = [x01; x02; x03].
Proof.
  apply (wav_round_trip 16000 16 1 [[x01; x02]; [x03]]).
  vm_compute. reflexivity.
Defined.
End WavSession.

Section Capture.
Import Wav.

Lemma samples_of_range (chunk : list byte) : 0 <= samples_of chunk <= 512.
Proof.
  unfold samples_of, i2s_read, buffer_bytes.
  pose proof (firstn_le_length 1024 chunk) as H.
  apply Nat2Z.inj_le in H.
  change (Z.of_nat 1024) with 1024 in H.
  pose proof (Zle_0_nat (List.length (firstn 1024 chunk))).
  Z.div_mod_to_equations. lia.
Qed.

Lemma samples_in_app (xs ys : list (list byte)) :
  samples_in (xs ++ ys) = samples_in xs + samples_in ys.
Proof.
  induction xs as [|x xs IH]; cbn [samples_in fold_right app].
  - reflexivity.
  - fold (samples_in (xs ++ ys)). fold (samples_in xs). lia.
Qed.

(** The loop, from any state it can be in: it stops on the read that
    first brings the count to the target, and not before. *)
Lemma recordAudio_loop_spec (totalSamples : Z) :
  totalSamples + 512 <= 2 ^ 32 ->
  forall (reads : list (list byte)) (acc : Z) (file : File),
    0 <= acc < totalSamples + 512 ->
    totalSamples <= acc + samples_in reads ->
    let c := recordAudio_loop reads totalSamples acc file in
    how c = Stopped
    /\ (totalSamples <= samplesRecorded c < totalSamples + 512)
    /\ exists used,
         reads = used ++ reads_left c
         /\ samplesRecorded c = acc + samples_in used
         /\ audioFile c = write_all file (map i2s_read used)
         /\ (forall pre post, used = pre ++ post -> post <> [] ->
             acc + samples_in pre < totalSamples).
Proof.
  intros Hfit reads.
  assert (Hstop : forall acc file rs,
             0 <= acc < totalSamples + 512 -> totalSamples <= acc ->
             let c := mkCapture Stopped acc file rs in
             how c = Stopped
             /\ (totalSamples <= samplesRecorded c < totalSamples + 512)
             /\ exists used,
                  rs = used ++ reads_left c
                  /\ samplesRecorded c = acc + samples_in used
                  /\ audioFile c = write_all file (map i2s_read used)
                  /\ (forall pre post, used = pre ++ post -> post <> [] ->
                      acc + samples_in pre < totalSamples)).
  { intros acc file rs Hacc Hge. cbn. split; [reflexivity|].
    split; [lia|]. exists []. repeat split; try (cbn; lia).
    intros pre post Hpp Hne.
    destruct pre; destruct post; try discriminate. congruence. }
  induction reads as [|chunk reads IH]; intros acc file Hacc Hsup;
    cbn [recordAudio_loop]; destruct (acc <? totalSamples) eqn:E.
  - apply Z.ltb_lt in E. cbn [samples_in fold_right] in Hsup. lia.
  - apply Z.ltb_ge in E. now apply Hstop.
  - apply Z.ltb_lt in E.
    cbn [samples_in fold_right] in Hsup. fold (samples_in reads) in Hsup.
    pose proof (samples_of_range chunk) as Hs.
    change (SAMPLE_BITS / 8) with 2.
    fold (samples_of chunk).
    assert (Hu : u32 (acc + samples_of chunk) = acc + samples_of chunk).
    { unfold u32, wrap. apply Z.mod_small. lia. }
    rewrite Hu.
    specialize (IH (acc + samples_of chunk) (write file (i2s_read chunk))).
    cbv zeta in IH.
    destruct IH as (Hhow & Hrange & used & Hreads & Hcount & Hfile & Hmin);
      [lia | lia |].
    split; [exact Hhow|]. split; [exact Hrange|].
    exists (chunk :: used). repeat split.
    + cbn [app]. now rewrite <- Hreads.
    + rewrite Hcount. cbn [samples_in fold_right].
      fold (samples_in used). lia.
    + rewrite Hfile. reflexivity.
    + intros pre post Hpp Hne.
      destruct pre as [|p pre].
      * cbn [samples_in fold_right]. lia.
      * cbn [app] in Hpp. injection Hpp as -> Hpp.
        specialize (Hmin pre post Hpp Hne).
        cbn [samples_in fold_right]. fold (samples_in pre). lia.
  - apply Z.ltb_ge in E. now apply Hstop.
Qed.

(** C2, as stated, fails: one second of full 512-sample reads stops at
    16384 samples, a whole chunk boundary, not at 16000. *)
Lemma recordAudio_overshoots :
  (let c := recordAudio 1 (repeat Fixture.full_read 32) created in
   how c = Stopped /\ reads_left c = [] /\ samplesRecorded c = 16384
   /\ SAMPLE_RATE * 1 = 16000)
  /\ ~ capture_is_exact.
Proof.
  split; [vm_compute; repeat split|].
  intros H.
  specialize (H 1 (repeat Fixture.full_read 32) ltac:(lia)).
  vm_compute in H. specialize (H eq_refl). discriminate H.
Qed.

(** C2, amended -- capture duration.  Given enough channel reads, full
    or partial, [recordAudio] stops on the first read that brings the
    count of received samples (two bytes each, an odd byte not counted)
    to [SAMPLE_RATE * durationSec] or beyond: it ends with at least the
    target and fewer than 512 samples above it, every byte received
    written to the file. *)
Theorem recordAudio_reaches_target (durationSec : Z)
    (reads : list (list byte)) (file : File) :
  0 <= durationSec ->
  SAMPLE_RATE * durationSec + 512 <= 2 ^ 32 ->
  SAMPLE_RATE * durationSec <= samples_in reads ->
  let target := SAMPLE_RATE * durationSec in
  let c := recordAudio durationSec reads file in
  how c = Stopped
  /\ target <= samplesRecorded c < target + 512
  /\ exists used,
       reads = used ++ reads_left c
       /\ samplesRecorded c = samples_in used
       /\ audioFile c = write_all file (map i2s_read used)
       /\ (forall pre post, used = pre ++ post -> post <> [] ->
           samples_in pre < target).
Proof.
  intros Hd Hfit Hsup target c.
  assert (Ht : u32 (SAMPLE_RATE * u32 durationSec) = target).
  { unfold target, SAMPLE_RATE, u32, wrap in *.
    change (2 ^ 32) with 4294967296 in *.
    rewrite (Z.mod_small durationSec) by lia.
    apply Z.mod_small. lia. }
  unfold c, recordAudio. cbv zeta. rewrite Ht.
  destruct (recordAudio_loop_spec target Hfit reads 0 file)
    as (Hhow & Hrange & used & H1 & H2 & H3 & H4).
  { unfold target, SAMPLE_RATE in *. lia. }
  { unfold target. lia. }
  split; [exact Hhow|]. split; [exact Hrange|].
  exists used. repeat split; trivial.
Qed.

Lemma recordAudio_reaches_target_witness :
  let c := recordAudio 1 (repeat Fixture.full_read 32) created in
  how c = Stopped /\ 16000 <= samplesRecorded c < 16512.
Proof.
  destruct (recordAudio_reaches_target 1 (repeat Fixture.full_read 32)
              created) as (H1 & H2 & _).
  - lia.
  - vm_compute. discriminate.
  - vm_compute. discriminate.
  - split; [exact H1 | exact H2].
Defined.

End Capture.

(* ================================================================== *)
(** ** The playback loop *)
(* ================================================================== *)

Section PlayerLemmas.
Import Player.
Local Open Scope nat_scope.

Lemma available_rest (f : File) : available f = List.length (rest f).
Proof. unfold available, size, rest. now rewrite length_skipn. Qed.

Lemma trim_even_floor (got : nat) :
  (if negb (got mod 2 =? 0) then got - 1 else got) = even_floor got.
Proof.
  unfold even_floor.
  pose proof (Nat.div_mod_eq got 2) as H.
  pose proof (Nat.mod_upper_bound got 2 ltac:(lia)) as Hm.
  destruct (got mod 2 =? 0) eqn:E; cbn [negb].
  - apply Nat.eqb_eq in E. lia.
  - apply Nat.eqb_neq in E. lia.
Qed.

Lemma even_floor_spec (n : nat) :
  Nat.Even (even_floor n)
  /\ even_floor n <= n <= even_floor n + 1
  /\ (forall m, Nat.Even m -> m <= n -> m <= even_floor n).
Proof.
  unfold even_floor.
  pose proof (Nat.div_mod_eq n 2) as H.
  pose proof (Nat.mod_upper_bound n 2 ltac:(lia)) as Hm.
  split; [exists (n / 2); lia|]. split; [lia|].
  intros m [k ->] Hle. lia.
Qed.

Lemma rest_after_read (f : File) (n : nat) :
  rest (snd (read_block f n)) = skipn n (rest f).
Proof.
  unfold read_block, rest; cbn [snd content position].
  rewrite length_firstn, length_skipn.
  rewrite skipn_skipn.
  destruct (Nat.le_gt_cases n (List.length (content f) - position f)).
  - rewrite Nat.min_l by lia. f_equal. lia.
  - rewrite Nat.min_r by lia.
    rewrite !skipn_all2 by lia. reflexivity.
Qed.

Lemma playSong_body_eq (f : File) (ch : Channel) :
  playSong_body f ch
  = let chunk := firstn BUFFER_SIZE (rest f) in
    let n' := even_floor (List.length chunk) in
    (List.length chunk, n', n', snd (read_block f BUFFER_SIZE),
     snd (i2s_write ch chunk n' portMAX_DELAY)).
Proof.
  unfold playSong_body, read_block. fold (rest f).
  rewrite trim_even_floor. reflexivity.
Qed.

Lemma chunks_of_enough (n : nat) :
  0 < n ->
  forall fuel fuel' bs,
    List.length bs <= fuel -> List.length bs <= fuel' ->
    chunks_of fuel n bs = chunks_of fuel' n bs.
Proof.
  intros Hn fuel.
  induction fuel as [|fuel IH]; intros fuel' bs H H'.
  - destruct bs; [|cbn in H; lia]. destruct fuel'; reflexivity.
  - destruct bs as [|b bs]; [destruct fuel'; reflexivity|].
    destruct fuel' as [|fuel']; [cbn in H'; lia|].
    cbn [chunks_of]. f_equal.
    apply IH; rewrite length_skipn; cbn [List.length] in *; lia.
Qed.

Lemma chunks_nil (n : nat) : chunks n [] = [].
Proof. reflexivity. Qed.

Lemma chunks_cons (n : nat) (bs : list byte) :
  0 < n -> bs <> [] ->
  chunks n bs = firstn n bs :: chunks n (skipn n bs).
Proof.
  intros Hn Hne. unfold chunks.
  destruct bs as [|b bs]; [congruence|].
  cbn [List.length chunks_of]. f_equal.
  apply chunks_of_enough; trivial.
  rewrite length_skipn. cbn [List.length]. lia.
Qed.

(** The reference chunking cuts the whole stream into non-empty pieces
    of at most [n] bytes. *)
Lemma chunks_spec (n : nat) :
  0 < n ->
  forall k bs, List.length bs <= k ->
    concat (chunks n bs) = bs
    /\ Forall (fun c => 0 < List.length c <= n) (chunks n bs).
Proof.
  intros Hn k.
  induction k as [|k IH]; intros bs Hk.
  - destruct bs; [|cbn in Hk; lia]. split; [reflexivity|constructor].
  - destruct bs as [|b bs]; [split; [reflexivity|constructor]|].
    rewrite chunks_cons by (trivial; discriminate).
    destruct (IH (skipn n (b :: bs))) as [Hc Hf].
    { rewrite length_skipn. cbn [List.length] in *. lia. }
    split.
    + cbn [concat]. rewrite Hc. apply firstn_skipn.
    + constructor; [|exact Hf].
      rewrite length_firstn. cbn [List.length]. lia.
Qed.

Lemma playSong_loop_spec :
  forall k f ch log fuel,
    List.length (rest f) <= k ->
    List.length (chunks BUFFER_SIZE (rest f)) <= fuel ->
    exists f',
      playSong_loop fuel f ch log
      = Some (f', transmit_all ch (chunks BUFFER_SIZE (rest f)),
              log ++ map (@List.length byte) (chunks BUFFER_SIZE (rest f)))
      /\ rest f' = [].
Proof.
  induction k as [|k IH]; intros f ch log fuel Hk Hfuel.
  - assert (Hr : rest f = []) by (destruct (rest f); [reflexivity|cbn in Hk; lia]).
    exists f. rewrite Hr. cbn [chunks_nil map transmit_all fold_left].
    rewrite app_nil_r.
    destruct fuel; cbn [playSong_loop]; rewrite available_rest, Hr;
      cbn; auto.
  - destruct (rest f) as [|b bs] eqn:Hr.
    + exists f. cbn [chunks_nil map transmit_all fold_left].
      rewrite app_nil_r.
      destruct fuel; cbn [playSong_loop]; rewrite available_rest, Hr;
        cbn; auto.
    + rewrite chunks_cons in * by (unfold BUFFER_SIZE; try lia; discriminate).
      destruct fuel as [|fuel]; [cbn in Hfuel; lia|].
      cbn [playSong_loop]. rewrite available_rest, Hr.
      cbn [List.length Nat.eqb].
      rewrite playSong_body_eq, Hr. cbv zeta.
      destruct (IH (snd (read_block f BUFFER_SIZE))
                   (snd (i2s_write ch (firstn BUFFER_SIZE (b :: bs))
                           (even_floor
                              (List.length (firstn BUFFER_SIZE (b :: bs))))
                           portMAX_DELAY))
                   (log ++ [List.length (firstn BUFFER_SIZE (b :: bs))])
                   fuel) as (f' & Hloop & Hend).
      * rewrite rest_after_read, Hr, length_skipn.
        cbn [List.length] in *. unfold BUFFER_SIZE. lia.
      * rewrite rest_after_read, Hr. cbn [List.length] in Hfuel. lia.
      * exists f'. split; [|exact Hend].
        rewrite Hloop, rest_after_read, Hr.
        cbn [map transmit_all fold_left]. rewrite <- app_assoc.
        reflexivity.
Qed.

Lemma transmit_all_requests (cs : list (list byte)) :
  forall ch,
    requests (transmit_all ch cs)
    = requests ch ++ map (fun c => even_floor (List.length c)) cs.
Proof.
  induction cs as [|c cs IH]; intros ch; cbn [transmit_all fold_left map].
  - now rewrite app_nil_r.
  - fold (transmit_all (snd (i2s_write ch c (even_floor (List.length c))
                                     portMAX_DELAY)) cs).
    rewrite IH. cbn [i2s_write snd requests]. now rewrite <- app_assoc.
Qed.

Lemma transmit_all_sent (cs : list (list byte)) :
  forall ch,
    budget ch = [] ->
    sent (transmit_all ch cs)
    = sent ch ++ concat (map (fun c => firstn (even_floor (List.length c)) c) cs)
    /\ budget (transmit_all ch cs) = [].
Proof.
  induction cs as [|c cs IH]; intros ch Hb; cbn [transmit_all fold_left map concat].
  - now rewrite app_nil_r.
  - fold (transmit_all (snd (i2s_write ch c (even_floor (List.length c))
                                     portMAX_DELAY)) cs).
    destruct (IH (snd (i2s_write ch c (even_floor (List.length c))
                                 portMAX_DELAY))) as [Hs Hb'].
    { cbn [i2s_write snd budget]. now rewrite Hb. }
    rewrite Hs, Hb'. split; [|reflexivity].
    cbn [i2s_write snd sent accepts].
    now rewrite <- app_assoc.
Qed.

(** Under the unbounded wait every request is taken whole, whatever the
    channel would accept within a bounded one. *)
Lemma transmit_all_whole (cs : list (list byte)) :
  forall ch,
    sent (transmit_all ch cs)
    = sent ch ++ concat (map (fun c => firstn (even_floor (List.length c)) c) cs).
Proof.
  induction cs as [|c cs IH]; intros ch; cbn [transmit_all fold_left map concat].
  - now rewrite app_nil_r.
  - fold (transmit_all (snd (i2s_write ch c (even_floor (List.length c))
                                     portMAX_DELAY)) cs).
    rewrite IH. cbn [i2s_write snd sent accepts].
    now rewrite <- app_assoc.
Qed.

Lemma chunks_count (cs : list (list byte)) :
  Forall (fun c => 0 < List.length c <= BUFFER_SIZE) cs ->
  List.length cs <= List.length (concat cs).
Proof.
  induction 1 as [|c cs Hc _ IH]; cbn [concat List.length]; [lia|].
  rewrite length_app. lia.
Qed.

(** One pass over any file that opens, on any channel: every chunk,
    trimmed, reaches the channel whole. *)
Lemma playSong_transmits_trimmed_chunks : transmits_trimmed_chunks.
Proof.
  intros sd filename bytes ch Hex Hopen.
  destruct (chunks_spec BUFFER_SIZE ltac:(unfold BUFFER_SIZE; lia)
              (List.length bytes) bytes (le_n _)) as [Hc Hf].
  pose proof (chunks_count _ Hf) as Hn. rewrite Hc in Hn.
  destruct (playSong_loop_spec (List.length bytes) (opened bytes) ch []
              (List.length bytes)) as (f' & Hloop & _);
    [reflexivity | exact Hn |].
  change (rest (opened bytes)) with bytes in Hloop.
  unfold playSong. rewrite Hex, Hopen. cbn [negb i2s chunks_read].
  rewrite Hloop. eexists. split; [reflexivity|].
  cbn [i2s]. apply transmit_all_whole.
Qed.

End PlayerLemmas.

(* ================================================================== *)
(** ** Playback: chunks, failure and termination *)
(* ================================================================== *)

Section PlayerTheorems.
Import Player Fixture.
Local Open Scope nat_scope.

(** C5 -- playback chunk trimming and full transmission.  Every chunk
    of [n] bytes a read returns is trimmed to the largest even length
    [n'] not above [n] (at most one byte dropped, and the next read
    starts after it, so it is not carried over), and then exactly [n']
    bytes of it are transmitted: the one [i2s_write] of [n'] bytes is
    made with [portMAX_DELAY] and returns only when the channel has
    taken the whole trimmed chunk, whatever it would accept within a
    bounded wait.  So one pass leaves every trimmed chunk on the channel
    whole. *)
Theorem playSong_chunk (f : File) (ch : Channel) :
  let chunk := firstn BUFFER_SIZE (rest f) in
  let n := List.length chunk in
  let '(got, bytesRead, bytesWritten, f', ch') := playSong_body f ch in
  got = n
  /\ bytesRead = even_floor n
  /\ Nat.Even bytesRead
  /\ bytesRead <= n <= bytesRead + 1
  /\ (forall m, Nat.Even m -> m <= n -> m <= bytesRead)
  /\ rest f' = skipn BUFFER_SIZE (rest f)
  /\ requests ch' = requests ch ++ [bytesRead]
  /\ bytesWritten = bytesRead
  /\ sent ch' = sent ch ++ firstn bytesRead chunk
  /\ List.length (sent ch') = List.length (sent ch) + bytesRead
  /\ transmits_trimmed_chunks.
Proof.
  intros chunk n. rewrite playSong_body_eq. cbv zeta. fold chunk. fold n.
  destruct (even_floor_spec n) as (He & Hle & Hmax).
  repeat match goal with |- _ /\ _ => split end;
    trivial; try lia.
  - apply rest_after_read.
  - cbn [i2s_write snd sent accepts]. rewrite length_app, length_firstn.
    fold n. lia.
  - exact playSong_transmits_trimmed_chunks.
Qed.

Lemma playSong_chunk_witness :
  playSong_body (opened five) (mkChannel [] [] [2])
  = (5%nat, 4%nat, 4%nat, mkFile five 5,
     mkChannel [x01; x02; x03; x04] [4%nat] [])
  /\ Nat.Even 4.
Proof.
  pose proof (playSong_chunk (opened five) (mkChannel [] [] [2])) as H.
  vm_compute in H. destruct H as (_ & _ & He & _).
  split; [reflexivity | exact He].
Defined.

(** C7 -- playback failure and termination.  If the path does not
    exist or does not open, [playSong] reads nothing and transmits
    nothing.  Otherwise it reads the file once, front to back, in
    non-empty chunks of at most [BUFFER_SIZE] bytes, offers each one
    (trimmed) to the channel, stops where a read would return no byte,
    and closes the file. *)
Theorem playSong_pass (sd : SDCard) (filename : string) (a : Audio)
    (fuel : nat) :
  (forall bytes, SD_open sd filename = Some bytes ->
                 List.length (chunks BUFFER_SIZE bytes) <= fuel) ->
  exists a',
    playSong fuel sd filename a = Some a'
    /\ match (if SD_exists sd filename then SD_open sd filename else None)
       with
       | None =>
           i2s a' = i2s a /\ chunks_read a' = chunks_read a
           /\ (audioFile a' = audioFile a \/ audioFile a' = None)
       | Some bytes =>
           let cs := chunks BUFFER_SIZE bytes in
           audioFile a' = None
           /\ concat cs = bytes
           /\ Forall (fun c => 0 < List.length c <= BUFFER_SIZE) cs
           /\ chunks_read a' = chunks_read a ++ map (@List.length byte) cs
           /\ requests (i2s a')
              = requests (i2s a)
                ++ map (fun c => even_floor (List.length c)) cs
           /\ match budget (i2s a) with
              | [] => sent (i2s a')
                      = sent (i2s a)
                        ++ concat (map (fun c =>
                                          firstn (even_floor (List.length c)) c)
                                       cs)
              | _ :: _ => True
              end
           /\ exists f',
                playSong_loop fuel (opened bytes) (i2s a) (chunks_read a)
                = Some (f', i2s a', chunks_read a')
                /\ fst (read_block f' BUFFER_SIZE) = []
       end.
Proof.
  intros Hfuel. unfold playSong.
  destruct (SD_exists sd filename); cbn [negb].
  2:{ exists a. split; [reflexivity|]. auto. }
  destruct (SD_open sd filename) as [bytes|] eqn:Hopen.
  2:{ eexists. split; [reflexivity|]. cbn. auto. }
  specialize (Hfuel bytes eq_refl).
  destruct (playSong_loop_spec (List.length bytes) (opened bytes) (i2s a)
              (chunks_read a) fuel) as (f' & Hloop & Hend);
    [reflexivity | exact Hfuel |].
  change (rest (opened bytes)) with bytes in Hloop.
  rewrite Hloop. eexists. split; [reflexivity|].
  cbv zeta. cbn [audioFile i2s chunks_read].
  destruct (chunks_spec BUFFER_SIZE ltac:(unfold BUFFER_SIZE; lia)
              (List.length bytes) bytes (le_n _)) as [Hc Hf].
  repeat split; trivial.
  - apply transmit_all_requests.
  - destruct (budget (i2s a)) eqn:Hb; [|exact I].
    now apply transmit_all_sent.
  - exists f'. split; [reflexivity|].
    unfold read_block; cbn [fst]. fold (rest f'). now rewrite Hend.
Qed.

Lemma playSong_pass_witness :
  exists a',
    playSong 1 (card song1 five) song1
             (mkAudio None (mkChannel [] [] []) [])
    = Some a'
    /\ audioFile a' = None
    /\ chunks_read a' = [5]
    /\ requests (i2s a') = [4]
    /\ sent (i2s a') = [x01; x02; x03; x04].
Proof.
  destruct (playSong_pass (card song1 five) song1
              (mkAudio None (mkChannel [] [] []) []) 1) as (a' & Hrun & H).
  - intros bytes Hb. vm_compute in Hb. injection Hb as <-.
    vm_compute. lia.
  - exists a'. split; [exact Hrun|].
    vm_compute in H. destruct H as (H1 & _ & _ & H2 & H3 & H4 & _).
    auto.
Defined.

End PlayerTheorems.

(* ================================================================== *)
(** ** Bit-level facts; scanning the bitmap header *)
(* ================================================================== *)

Section Bits.

Lemma testbit_above (a k n : Z) :
  0 <= a < 2 ^ k -> 0 <= k <= n -> Z.testbit a n = false.
Proof.
  intros Ha Hk.
  rewrite <- (Z.mod_small a (2 ^ k)) by assumption.
  apply Z.mod_pow2_bits_high. lia.
Qed.

Lemma lor_shiftl_low (a b k : Z) :
  0 <= a < 2 ^ k -> 0 <= k -> Z.lor a (Z.shiftl b k) = a + b * 2 ^ k.
Proof.
  intros Ha Hk.
  assert (Hd : Z.land a (Z.shiftl b k) = 0).
  { apply Z.bits_inj'. intros n Hn.
    rewrite Z.land_spec, Z.bits_0.
    destruct (Z.lt_ge_cases n k) as [Hlt|Hge].
    - rewrite Z.shiftl_spec_low by assumption. apply andb_false_r.
    - rewrite (testbit_above a k n) by lia. reflexivity. }
  rewrite <- Z.lxor_lor by assumption.
  rewrite <- Z.add_nocarry_lxor by assumption.
  now rewrite Z.shiftl_mul_pow2.
Qed.

(** A read past the end of the file sets the top bits of the word. *)
Lemma top_bit_of_eof (x : Z) (w s : Z) :
  0 <= s < w ->
  Z.testbit (wrap w (Z.lor x (Z.shiftl (-1) s))) (w - 1) = true.
Proof.
  intros H. unfold wrap.
  rewrite Z.mod_pow2_bits_low by lia.
  rewrite Z.lor_spec, Z.shiftl_spec by lia.
  rewrite Z.bits_m1 by lia. apply orb_true_r.
Qed.

End Bits.

Section HeaderReads.
Import Bmp.

Variable bytes : list byte.

Lemma byte_at_range (k : nat) :
  byte_at bytes k = -1 \/ 0 <= byte_at bytes k < 256.
Proof.
  unfold byte_at. destruct (nth_error bytes k); [right|now left].
  apply Z_of_byte_range.
Qed.

Lemma byte_at_eof (k : nat) :
  (List.length bytes <= k)%nat -> byte_at bytes k = -1.
Proof.
  intros H. unfold byte_at.
  now rewrite (proj2 (nth_error_None bytes k) H).
Qed.

Lemma reads_app (k n m : nat) :
  reads bytes k (n + m) = reads bytes k n ++ reads bytes (k + n) m.
Proof. unfold reads. now rewrite seq_app, map_app. Qed.

Lemma reads_snoc (n : nat) :
  reads bytes 0 (S n) = reads bytes 0 n ++ [FileRead (byte_at bytes n)].
Proof. unfold reads. now rewrite seq_S, map_app. Qed.

(** The [k]-th single-byte read of a sequential scan. *)
Lemma fread_scanned (k : nat) :
  fread (scanned bytes k) = (byte_at bytes k, scanned bytes (S k)).
Proof.
  unfold fread, scanned, read_byte;
    cbn [file content position is_open trace].
  rewrite reads_snoc. unfold byte_at.
  destruct (Nat.le_gt_cases (List.length bytes) k) as [Hle|Hgt].
  - rewrite !Nat.min_r by lia.
    rewrite (proj2 (nth_error_None bytes (List.length bytes)) (le_n _)).
    now rewrite (proj2 (nth_error_None bytes k) Hle).
  - rewrite !Nat.min_l by lia.
    destruct (nth_error bytes k) as [b|] eqn:E; [reflexivity|].
    apply nth_error_None in E. lia.
Qed.

Lemma read16_scanned (k : nat) :
  read16 (scanned bytes k) = (rd16 bytes k, scanned bytes (k + 2)).
Proof.
  unfold read16, rd16.
  do 2 (rewrite fread_scanned; cbv beta iota).
  do 2 f_equal; try (f_equal; lia).
  do 3 f_equal; lia.
Qed.

Lemma read32_scanned (k : nat) :
  read32 (scanned bytes k) = (rd32 bytes k, scanned bytes (k + 4)).
Proof.
  unfold read32, rd32.
  do 4 (rewrite fread_scanned; cbv beta iota).
  replace (S k) with (k + 1)%nat by lia.
  replace (S (k + 1)) with (k + 2)%nat by lia.
  replace (S (k + 2)) with (k + 3)%nat by lia.
  replace (S (k + 3)) with (k + 4)%nat by lia.
  reflexivity.
Qed.

(** [displayBMP] on an opened file, as three gates over the header. *)
Lemma displayBMP_gates (sd : SDCard) (filename : string)
    (stack : list byte) (x y : Z) :
  SD_open sd filename = Some bytes ->
  displayBMP sd filename stack x y
  = leave
      (if negb (rd16 bytes 0 =? 19778) then scanned bytes 2
       else if negb (rd16 bytes 28 =? 24) then scanned bytes 30
       else if negb (rd32 bytes 30 =? 0) then scanned bytes 34
       else render (scanned bytes 34) stack x y
                   (rd32 bytes 10) (i32 (rd32 bytes 18))
                   (i32 (rd32 bytes 22))).
Proof.
  intros Hopen. unfold displayBMP. rewrite Hopen.
  change (mkDec (opened bytes) true []) with (scanned bytes 0).
  rewrite read16_scanned; cbv beta iota; cbn [Nat.add].
  destruct (negb (rd16 bytes 0 =? 19778)); [reflexivity|].
  do 6 (rewrite read32_scanned; cbv beta iota; cbn [Nat.add]).
  do 2 (rewrite read16_scanned; cbv beta iota; cbn [Nat.add]).
  destruct (negb (rd16 bytes 28 =? 24)); [reflexivity|].
  rewrite read32_scanned; cbv beta iota; cbn [Nat.add].
  destruct (negb (rd32 bytes 30 =? 0)); reflexivity.
Qed.

End HeaderReads.

(* ================================================================== *)
(** ** Header fields and the format gates *)
(* ================================================================== *)

Section HeaderValues.
Import Bmp.

Variable bytes : list byte.

Lemma skipn_nth_error (k : nat) (b : byte) :
  nth_error bytes k = Some b -> skipn k bytes = b :: skipn (S k) bytes.
Proof.
  revert k. induction bytes as [|a l IH]; intros k H.
  - destruct k; discriminate.
  - destruct k as [|k]; cbn in H |- *.
    + now injection H as ->.
    + now apply IH.
Qed.

Lemma nth_error_in_range (k : nat) :
  (k < List.length bytes)%nat -> exists b, nth_error bytes k = Some b.
Proof.
  intros H. destruct (nth_error bytes k) as [b|] eqn:E; [now exists b|].
  apply nth_error_None in E. lia.
Qed.

Lemma byte_at_some (k : nat) (b : byte) :
  nth_error bytes k = Some b -> byte_at bytes k = Z_of_byte b.
Proof. intros H. unfold byte_at. now rewrite H. Qed.

Lemma rd16_eof (k : nat) :
  (List.length bytes < k + 2)%nat -> Z.testbit (rd16 bytes k) 15 = true.
Proof.
  intros H. unfold rd16, u16.
  rewrite (byte_at_eof bytes (k + 1)) by lia.
  apply (top_bit_of_eof _ 16 8). lia.
Qed.

Lemma rd32_eof (k : nat) :
  (List.length bytes < k + 4)%nat -> Z.testbit (rd32 bytes k) 31 = true.
Proof.
  intros H. unfold rd32, u32.
  rewrite (byte_at_eof bytes (k + 3)) by lia.
  apply (top_bit_of_eof _ 32 24). lia.
Qed.

Lemma rd16_le_at (k : nat) :
  (k + 2 <= List.length bytes)%nat -> le_at bytes k 2 = Some (rd16 bytes k).
Proof.
  intros H.
  destruct (nth_error_in_range k) as [b0 E0]; [lia|].
  destruct (nth_error_in_range (k + 1)) as [b1 E1]; [lia|].
  unfold le_at, rd16.
  rewrite (skipn_nth_error k b0 E0).
  replace (S k) with (k + 1)%nat by lia.
  rewrite (skipn_nth_error (k + 1) b1 E1).
  cbn [firstn List.length Nat.eqb le_decode].
  rewrite (byte_at_some k b0 E0), (byte_at_some (k + 1) b1 E1).
  pose proof (Z_of_byte_range b0). pose proof (Z_of_byte_range b1).
  rewrite lor_shiftl_low by lia.
  unfold u16, wrap. rewrite Z.mod_small by lia.
  f_equal. lia.
Qed.

Lemma rd32_le_at (k : nat) :
  (k + 4 <= List.length bytes)%nat -> le_at bytes k 4 = Some (rd32 bytes k).
Proof.
  intros H.
  destruct (nth_error_in_range k) as [b0 E0]; [lia|].
  destruct (nth_error_in_range (k + 1)) as [b1 E1]; [lia|].
  destruct (nth_error_in_range (k + 2)) as [b2 E2]; [lia|].
  destruct (nth_error_in_range (k + 3)) as [b3 E3]; [lia|].
  unfold le_at, rd32.
  rewrite (skipn_nth_error k b0 E0).
  replace (S k) with (k + 1)%nat by lia.
  rewrite (skipn_nth_error (k + 1) b1 E1).
  replace (S (k + 1)) with (k + 2)%nat by lia.
  rewrite (skipn_nth_error (k + 2) b2 E2).
  replace (S (k + 2)) with (k + 3)%nat by lia.
  rewrite (skipn_nth_error (k + 3) b3 E3).
  cbn [firstn List.length Nat.eqb le_decode].
  rewrite (byte_at_some k b0 E0), (byte_at_some (k + 1) b1 E1),
    (byte_at_some (k + 2) b2 E2), (byte_at_some (k + 3) b3 E3).
  pose proof (Z_of_byte_range b0). pose proof (Z_of_byte_range b1).
  pose proof (Z_of_byte_range b2). pose proof (Z_of_byte_range b3).
  rewrite (lor_shiftl_low (Z_of_byte b0)) by lia.
  rewrite (lor_shiftl_low (Z_of_byte b0 + _)) by lia.
  rewrite (lor_shiftl_low (Z_of_byte b0 + _ + _)) by lia.
  unfold u32, wrap. rewrite Z.mod_small by lia.
  f_equal. lia.
Qed.

(** A 16-bit field the decoder reads as [v], top bit clear, lies whole
    in the file and holds [v]. *)
Lemma rd16_field (k : nat) (v : Z) :
  rd16 bytes k = v -> Z.testbit v 15 = false -> le_at bytes k 2 = Some v.
Proof.
  intros Hv Hb.
  destruct (Nat.le_gt_cases (k + 2) (List.length bytes)) as [Hle|Hgt].
  - rewrite <- Hv. now apply rd16_le_at.
  - apply rd16_eof in Hgt. congruence.
Qed.

Lemma rd32_field (k : nat) (v : Z) :
  rd32 bytes k = v -> Z.testbit v 31 = false -> le_at bytes k 4 = Some v.
Proof.
  intros Hv Hb.
  destruct (Nat.le_gt_cases (k + 4) (List.length bytes)) as [Hle|Hgt].
  - rewrite <- Hv. now apply rd32_le_at.
  - apply rd32_eof in Hgt. congruence.
Qed.

Lemma magic_is_BM :
  rd16 bytes 0 = 19778 -> firstn 2 bytes = [x42; x4d].
Proof.
  intros H. apply rd16_field in H; [|reflexivity].
  unfold le_at in H. cbn [skipn] in H.
  destruct bytes as [|b0 [|b1 l]];
    cbn [firstn List.length Nat.eqb] in H; try discriminate.
  assert (Hv : le_decode [b0; b1] = 19778) by congruence.
  change (le_decode [b0; b1])
    with (Z_of_byte b0 + 256 * (Z_of_byte b1 + 256 * 0)) in Hv.
  pose proof (Z_of_byte_range b0) as R0.
  pose proof (Z_of_byte_range b1) as R1.
  assert (E0 : Z_of_byte b0 = Z_of_byte x42)
    by (change (Z_of_byte x42) with 66; lia).
  assert (E1 : Z_of_byte b1 = Z_of_byte x4d)
    by (change (Z_of_byte x4d) with 77; lia).
  apply Z_of_byte_inj in E0, E1. subst. reflexivity.
Qed.

Lemma drawn_leave (d : Dec) : drawn (leave d) = drawn d.
Proof. reflexivity. Qed.

Lemma drawn_scanned (n : nat) : drawn (scanned bytes n) = [].
Proof.
  unfold drawn, scanned, reads; cbn [trace].
  induction (seq 0 n) as [|i l IH]; [reflexivity|exact IH].
Qed.

End HeaderValues.

Section BmpTheorems.
Import Bmp Fixture.

(** A file without the magic: the decoder returns after the two reads
    of [read16]. *)
Lemma displayBMP_bad_magic (sd : SDCard) (filename : string)
    (stack bytes : list byte) (x y : Z) :
  SD_open sd filename = Some bytes ->
  firstn 2 bytes <> [x42; x4d] ->
  displayBMP sd filename stack x y = leave (scanned bytes 2).
Proof.
  intros Hopen Hmagic. rewrite (displayBMP_gates bytes) by assumption.
  destruct (rd16 bytes 0 =? 19778) eqn:E; [|reflexivity].
  apply Z.eqb_eq, magic_is_BM in E. contradiction.
Qed.

(** C8 -- unsupported-format rejection.  A file whose bits-per-pixel
    field (offset 28) is not 24, or whose compression field (offset 30)
    is not 0, or that ends before them, reaches the render sink with
    nothing: no address window, no pixel. *)
Theorem displayBMP_rejects_unsupported (sd : SDCard) (filename : string)
    (stack bytes : list byte) (x y : Z) :
  SD_open sd filename = Some bytes ->
  le_at bytes 28 2 <> Some 24 \/ le_at bytes 30 4 <> Some 0 ->
  drawn (displayBMP sd filename stack x y) = [].
Proof.
  intros Hopen Hfmt. rewrite (displayBMP_gates bytes) by assumption.
  rewrite drawn_leave.
  destruct (rd16 bytes 0 =? 19778); cbn [negb];
    [|apply drawn_scanned].
  destruct (rd16 bytes 28 =? 24) eqn:Ebpp; cbn [negb];
    [|apply drawn_scanned].
  destruct (rd32 bytes 30 =? 0) eqn:Ecmp; cbn [negb];
    [|apply drawn_scanned].
  apply Z.eqb_eq in Ebpp, Ecmp.
  apply rd16_field in Ebpp; [|reflexivity].
  apply rd32_field in Ecmp; [|reflexivity].
  destruct Hfmt; contradiction.
Qed.

Lemma displayBMP_rejects_unsupported_witness :
  drawn (displayBMP (card image1 (header BM 24 2 8 0 0)) image1 [] 0 0)
  = [].
Proof.
  apply (displayBMP_rejects_unsupported _ _ _ (header BM 24 2 8 0 0)).
  - reflexivity.
  - left. vm_compute. discriminate.
Defined.

(** C3 -- bitmap magic rejection.  On a file whose first two bytes are
    not ['B','M'], [displayBMP] makes the two single-byte reads of the
    magic and no other call on the file, so it returns before any other
    header field is read; it draws nothing; and it returns with no
    handle held, the local [File] being destroyed at the [return]. *)
Theorem displayBMP_bad_magic_clean (sd : SDCard) (filename : string)
    (stack bytes : list byte) (x y : Z) :
  SD_open sd filename = Some bytes ->
  firstn 2 bytes <> [x42; x4d] ->
  let d := displayBMP sd filename stack x y in
  trace d = [FileRead (byte_at bytes 0); FileRead (byte_at bytes 1)]
  /\ (position (file d) <= 2)%nat
  /\ content (file d) = bytes
  /\ drawn d = []
  /\ is_open d = false.
Proof.
  intros Hopen Hmagic d. unfold d.
  rewrite (displayBMP_bad_magic sd filename stack bytes x y Hopen Hmagic).
  unfold leave, scanned; cbn [trace file position content is_open].
  split; [reflexivity|]. split; [apply Nat.le_min_l|].
  split; [reflexivity|]. split; [apply (drawn_scanned bytes 2)|reflexivity].
Qed.

Lemma displayBMP_bad_magic_clean_witness :
  let d := displayBMP (card image1 not_a_bitmap) image1 [] 0 0 in
  trace d = [FileRead 80; FileRead 75]
  /\ (position (file d) <= 2)%nat
  /\ content (file d) = not_a_bitmap
  /\ drawn d = []
  /\ is_open d = false.
Proof.
  apply (displayBMP_bad_magic_clean (card image1 not_a_bitmap) image1 []
           not_a_bitmap 0 0).
  - reflexivity.
  - vm_compute. discriminate.
Defined.

End BmpTheorems.

(* ================================================================== *)
(** ** Row order *)
(* ================================================================== *)

Section RowOrder.
Import Bmp Fixture.

(** The row index and the seek target are the bitmap's: bottom-up
    files are read from their last stored row backwards. *)
Lemma source_row_spec (h r : Z) :
  - 2 ^ 31 < h < 2 ^ 31 -> 0 <= r < Z.abs h ->
  source_row (h >? 0) (i32 (Z.abs h)) r
  = if h >? 0 then h - 1 - r else r.
Proof.
  intros Hh Hr. unfold source_row, i32, swrap.
  change (2 ^ (32 - 1)) with 2147483648.
  change (2 ^ 32) with 4294967296.
  change (2 ^ 31) with 2147483648 in Hh.
  destruct (h >? 0) eqn:E; [|reflexivity].
  apply Z.gtb_lt in E.
  rewrite Z.abs_eq in * by lia.
  rewrite (Z.mod_small (h + _)) by lia.
  rewrite (Z.mod_small (h + _ - _ - _ + _)) by lia.
  rewrite Z.mod_small by lia. lia.
Qed.

Lemma sdbuffer_on_entry (stack : list byte) :
  List.length (firstn (Z.to_nat sdbuffer_size) stack
               ++ repeat x00 (Z.to_nat sdbuffer_size - List.length stack))
  = 60%nat.
Proof.
  rewrite length_app, length_firstn, repeat_length.
  change (Z.to_nat sdbuffer_size) with 60%nat. lia.
Qed.

(** C4 -- row order on a 24 x 2 bottom-up bitmap.  The decoder seeks
    to stored row 1 for destination row 0 and to stored row 0 for
    destination row 1, as the claim has it, and destination row 0 is
    stored row 1; but destination row 1 starts with sixteen pixels of
    stored row 1 again, left in [sdbuffer] from before the seek, and
    only then shows stored row 0.  This holds whatever the buffer held
    on entry. *)
Theorem displayBMP_stale_cache (stack : list byte) :
  let d := displayBMP (card image1 two_rows) image1 stack 0 0 in
  filter is_seek (trace d)
  = [FileSeek (54 + 1 * 72); FileSeek (54 + 0 * 72)]
  /\ drawn_row d 0 = stored_row two_rows 54 72 24 1
  /\ stored_row two_rows 54 72 24 0 = repeat RED 24
  /\ drawn_row d 1 = repeat BLUE 16 ++ repeat RED 8
  /\ drawn_row d 1 <> stored_row two_rows 54 72 24 0.
Proof.
  intros d.
  assert (Hd : exists buf, List.length buf = 60%nat
               /\ d = leave (fclose (dec (for_range 0 2
                        (row_body 0 0 54 72 true 24 2)
                        (mkPix (emit (SetAddrWindow 0 0 23 1)
                                     (scanned two_rows 34))
                               buf 60))))).
  { exists (firstn (Z.to_nat sdbuffer_size) stack
            ++ repeat x00 (Z.to_nat sdbuffer_size - List.length stack)).
    split; [apply sdbuffer_on_entry|].
    unfold d. rewrite (displayBMP_gates two_rows) by reflexivity.
    reflexivity. }
  destruct Hd as (buf & Hlen & ->).
  do 60 (destruct buf as [|? buf]; [discriminate Hlen|]).
  destruct buf; [|discriminate Hlen].
  vm_compute. repeat split. discriminate.
Qed.

(** Where the stride is the size of the cache, every row starts on a
    refill and the rows come out in the claimed order. *)
Lemma displayBMP_cache_wide :
  let d := displayBMP (card image1 cache_wide) image1 [] 0 0 in
  drawn_row d 0 = stored_row cache_wide 54 60 20 1
  /\ drawn_row d 1 = stored_row cache_wide 54 60 20 0
  /\ is_open d = false.
Proof. vm_compute. repeat split. Qed.

End RowOrder.

(* ================================================================== *)
(** ** Row stride *)
(* ================================================================== *)

Section Stride.
Import Bmp.

Lemma land_lnot_3 (t : Z) : Z.land t (Z.lnot 3) = 4 * (t / 4).
Proof.
  change 3 with (Z.ones 2).
  rewrite <- Z.ldiff_land, Z.ldiff_ones_r by lia.
  rewrite Z.shiftr_div_pow2, Z.shiftl_mul_pow2 by lia.
  change (2 ^ 2) with 4. lia.
Qed.

Lemma rowSize_of_eq (w : Z) :
  0 <= w -> 3 * w + 3 < 2 ^ 32 -> rowSize_of w = 4 * ((3 * w + 3) / 4).
Proof.
  intros Hw Hfit. unfold rowSize_of. rewrite land_lnot_3.
  unfold i32, swrap, u32, wrap.
  change (2 ^ (32 - 1)) with 2147483648.
  change (2 ^ 32) with 4294967296 in *.
  Z.div_mod_to_equations. lia.
Qed.

(** C6, amended -- row stride.  For every width [w >= 0] whose
    [3 * w + 3] fits in 32 bits, the stride the decoder computes is the
    smallest multiple of 4 that is at least [3 * w], that is
    [4 * ceil (3 * w / 4)]; width 5 gives 16 and width 4 gives 12. *)
Theorem rowSize_is_stride (w : Z) :
  0 <= w -> 3 * w + 3 < 2 ^ 32 ->
  is_stride w (rowSize_of w)
  /\ rowSize_of w = 4 * ((3 * w + 3) / 4)
  /\ rowSize_of 5 = 16 /\ rowSize_of 4 = 12.
Proof.
  intros Hw Hfit. rewrite (rowSize_of_eq w Hw Hfit).
  split; [|repeat split].
  unfold is_stride. repeat split.
  - Z.div_mod_to_equations. lia.
  - Z.div_mod_to_equations. lia.
  - intros m Hm Hle. Z.div_mod_to_equations. lia.
Qed.

Lemma rowSize_is_stride_witness :
  is_stride 5 (rowSize_of 5)
  /\ rowSize_of 5 = 4 * ((3 * 5 + 3) / 4)
  /\ rowSize_of 5 = 16 /\ rowSize_of 4 = 12.
Proof.
  apply (rowSize_is_stride 5); [lia | reflexivity].
Defined.

(** C6, as stated, fails: a width field of 0x55555555 is non-negative,
    and the 32-bit stride computed for it is 0. *)
Lemma rowSize_wraps :
  0 <= 1431655765 < 2 ^ 31
  /\ rowSize_of 1431655765 = 0
  /\ ~ is_stride 1431655765 (rowSize_of 1431655765).
Proof.
  split; [lia|]. split; [reflexivity|].
  intros (_ & H & _). vm_compute in H. apply H. reflexivity.
Qed.

End Stride.

(* ================================================================== *)
(** ** The scheduler *)
(* ================================================================== *)

Section SchedulerProofs.
Import Scheduler.

Ltac unfold_consts :=
  unfold cursors_ok, totalSongs, totalImages, DEBOUNCE_DELAY, interval,
    imageInterval, i32, swrap, u8, u32, wrap in *;
  change (2 ^ (32 - 1)) with 2147483648 in *;
  change (2 ^ 32) with 4294967296 in *;
  change (2 ^ 8) with 256 in *.

Lemma song_at_in_range (i : Z) : 0 <= i < totalSongs -> song_at i <> None.
Proof.
  unfold totalSongs. intros H.
  assert (Hc : i = 0 \/ i = 1 \/ i = 2 \/ i = 3 \/ i = 4) by lia.
  destruct Hc as [->|[->|[->|[->| ->]]]]; discriminate.
Qed.

(** The gates at the top of [loop] leave the playlist cursor and the
    accepted-press time alone. *)
Lemma loop_song (p : Pass) (g : Globals) :
  let g' := fst (loop p g) in
  currentSong g'
  = (if button_low p then
       if u32 (u32 (millis_button p) - lastButtonPressTime g)
          >? DEBOUNCE_DELAY
       then Z.rem (i32 (i32 (currentSong g - 1) + totalSongs)) totalSongs
       else currentSong g
     else Z.rem (i32 (currentSong g + 1)) totalSongs)
  /\ lastButtonPressTime g'
     = (if button_low p then
          if u32 (u32 (millis_button p) - lastButtonPressTime g)
             >? DEBOUNCE_DELAY
          then u32 (millis_button p)
          else lastButtonPressTime g
        else lastButtonPressTime g).
Proof.
  unfold loop.
  destruct (u32 (u32 (millis_entry p) - previousMillis g) >=? interval);
    cbn [previousImageMillis currentSong lastButtonPressTime currentImage
         previousMillis];
    destruct (u32 (u32 (millis_entry p) - previousImageMillis g)
              >=? imageInterval);
    cbn [previousImageMillis currentSong lastButtonPressTime currentImage
         previousMillis];
    destruct (button_low p);
    try destruct (u32 (u32 (millis_button p) - lastButtonPressTime g)
                  >? DEBOUNCE_DELAY);
    cbn [fst currentSong lastButtonPressTime]; split; reflexivity.
Qed.

Lemma step_back (s : Z) :
  0 <= s < totalSongs ->
  Z.rem (i32 (i32 (s - 1) + totalSongs)) totalSongs = (s - 1) mod totalSongs.
Proof.
  intros H. unfold_consts.
  assert (Hc : s = 0 \/ s = 1 \/ s = 2 \/ s = 3 \/ s = 4) by lia.
  destruct Hc as [->|[->|[->|[->| ->]]]]; reflexivity.
Qed.

Lemma step_forward (s : Z) :
  0 <= s < totalSongs ->
  Z.rem (i32 (s + 1)) totalSongs = (s + 1) mod totalSongs.
Proof.
  intros H. unfold_consts.
  assert (Hc : s = 0 \/ s = 1 \/ s = 2 \/ s = 3 \/ s = 4) by lia.
  destruct Hc as [->|[->|[->|[->| ->]]]]; reflexivity.
Qed.

Lemma loop_image (p : Pass) (g : Globals) :
  1 <= currentImage g <= totalImages ->
  1 <= currentImage (fst (loop p g)) <= totalImages.
Proof.
  intros H. unfold loop.
  destruct (u32 (u32 (millis_entry p) - previousMillis g) >=? interval);
    cbn [previousImageMillis currentSong lastButtonPressTime currentImage
         previousMillis];
    destruct (u32 (u32 (millis_entry p) - previousImageMillis g)
              >=? imageInterval);
    cbn [previousImageMillis currentSong lastButtonPressTime currentImage
         previousMillis];
    destruct (button_low p);
    try destruct (u32 (u32 (millis_button p) - lastButtonPressTime g)
                  >? DEBOUNCE_DELAY);
    cbn [fst currentImage]; trivial;
    unfold totalImages in *;
    (assert (Hc : currentImage g = 1 \/ currentImage g = 2
                  \/ currentImage g = 3 \/ currentImage g = 4) by lia;
     destruct Hc as [->|[->|[->| ->]]]; vm_compute; split; discriminate).
Qed.

Lemma loop_preserves (p : Pass) (g : Globals) :
  cursors_ok g -> cursors_ok (fst (loop p g)).
Proof.
  intros [Hs Hi]. split; [|now apply loop_image].
  destruct (loop_song p g) as [-> _].
  destruct (button_low p);
    [destruct (_ >? _)|]; trivial.
  - rewrite step_back by assumption. apply Z.mod_pos_bound. reflexivity.
  - rewrite step_forward by assumption. apply Z.mod_pos_bound. reflexivity.
Qed.

Lemma loop_tasks (p : Pass) (g : Globals) :
  cursors_ok g -> Forall task_ok (snd (loop p g)).
Proof.
  intros Hg. pose proof (loop_image p g (proj2 Hg)) as Himg.
  destruct Hg as [Hs Hi]. revert Himg. unfold loop.
  destruct (u32 (u32 (millis_entry p) - previousMillis g) >=? interval);
    cbn [previousImageMillis currentSong lastButtonPressTime currentImage
         previousMillis];
    destruct (u32 (u32 (millis_entry p) - previousImageMillis g)
              >=? imageInterval);
    cbn [previousImageMillis currentSong lastButtonPressTime currentImage
         previousMillis];
    destruct (button_low p);
    try destruct (u32 (u32 (millis_button p) - lastButtonPressTime g)
                  >? DEBOUNCE_DELAY);
    cbn [fst snd currentImage app]; intros Himg;
    repeat constructor; trivial; try lia;
    now apply song_at_in_range.
Qed.

Lemma run_invariant (ps : list Pass) :
  forall g done,
    cursors_ok g -> Forall task_ok done ->
    cursors_ok (fst (run ps g done)) /\ Forall task_ok (snd (run ps g done)).
Proof.
  induction ps as [|p ps IH]; intros g done Hg Hd; cbn [run].
  - auto.
  - pose proof (loop_preserves p g Hg) as Hg'.
    pose proof (loop_tasks p g Hg) as Ht.
    destruct (loop p g) as [g' ts]. cbn [fst snd] in *.
    apply IH; [assumption|].
    apply Forall_app. auto.
Qed.

(** C10 -- cursor range invariant.  From the initial globals
    ([currentSong = 0], [currentImage = 1]), after any number of passes
    of [loop] under any readings of the clock and the button,
    [0 <= currentSong < totalSongs] and
    [1 <= currentImage <= totalImages], and every song index and image
    number a path was built from is one of the enumerated ones. *)
Theorem cursors_in_range (ps : list Pass) :
  cursors_ok (fst (boot ps)) /\ Forall task_ok (snd (boot ps)).
Proof.
  unfold boot. apply run_invariant.
  - unfold cursors_ok, initial, totalSongs, totalImages; cbn. lia.
  - repeat constructor; unfold initial, totalImages; cbn; lia.
Qed.

(** C9 -- playlist cursor stepping.  In every pass of [loop]: if the
    button reads active and the (wrap-around) time since the last
    accepted press exceeds [DEBOUNCE_DELAY], the cursor steps back by
    one modulo [totalSongs] and the press time is updated; if it reads
    active within the window, nothing changes; if it reads inactive,
    the cursor steps forward by one modulo [totalSongs]. *)
Theorem loop_steps_playlist (ps : list Pass) (p : Pass) :
  let g := fst (boot ps) in
  let g' := fst (loop p g) in
  let since_press := u32 (u32 (millis_button p) - lastButtonPressTime g) in
  (button_low p = true -> since_press > DEBOUNCE_DELAY ->
     currentSong g' = (currentSong g - 1) mod totalSongs
     /\ lastButtonPressTime g' = u32 (millis_button p))
  /\ (button_low p = true -> since_press <= DEBOUNCE_DELAY ->
        currentSong g' = currentSong g
        /\ lastButtonPressTime g' = lastButtonPressTime g)
  /\ (button_low p = false ->
        currentSong g' = (currentSong g + 1) mod totalSongs
        /\ lastButtonPressTime g' = lastButtonPressTime g).
Proof.
  intros g g' since.
  assert (Hs : 0 <= currentSong g < totalSongs).
  { apply (run_invariant ps initial [ShowImage (currentImage initial)]).
    - unfold cursors_ok, initial, totalSongs, totalImages; cbn. lia.
    - repeat constructor; unfold initial, totalImages; cbn; lia. }
  destruct (loop_song p g) as [Hsong Hpress].
  fold g' in Hsong, Hpress. fold since in Hsong, Hpress.
  split; [|split].
  - intros Hb Hd. rewrite Hb in *.
    apply Z.gt_lt, Z.gtb_lt in Hd. rewrite Hd in Hsong, Hpress.
    rewrite Hsong. split; [now apply step_back | exact Hpress].
  - intros Hb Hd. rewrite Hb in *.
    assert (E : (since >? DEBOUNCE_DELAY) = false)
      by (rewrite Z.gtb_ltb; apply Z.ltb_ge; exact Hd).
    rewrite E in Hsong, Hpress. split; assumption.
  - intros Hb. rewrite Hb in *.
    rewrite Hsong. split; [now apply step_forward | exact Hpress].
Qed.

Lemma loop_steps_playlist_witness :
  let g := fst (boot []) in
  (currentSong (fst (loop (mkPass 0 true 100) g)) = 4
   /\ lastButtonPressTime (fst (loop (mkPass 0 true 100) g)) = 100)
  /\ (currentSong (fst (loop (mkPass 0 false 100) g)) = 1
      /\ lastButtonPressTime (fst (loop (mkPass 0 false 100) g)) = 0).
Proof.
  split.
  - apply (proj1 (loop_steps_playlist [] (mkPass 0 true 100)));
      [reflexivity | vm_compute; reflexivity].
  - apply (proj2 (proj2 (loop_steps_playlist [] (mkPass 0 false 100)))).
    reflexivity.
Defined.

End SchedulerProofs.
